(** * Talisman metrics/distance/hamming

    A shallow embedding of [src/metrics/distance/hamming.js] and the
    properties of its four exported functions: [hamming],
    [normalizedDistance], [normalizedSimilarity] and [bitwise]. *)

From Stdlib Require Import ZArith QArith Lia Lqa String Ascii.
From stdpp Require Import base decidable option list list_numbers numbers strings.

Local Open Scope nat_scope.

(** ** Values *)

(** The outcome of a call: either the returned value or the thrown
    [Error] with its message. *)
Inductive result (T : Type) : Type :=
| Return (v : T)
| Throw (message : string).
Global Arguments Return {T} v.
Global Arguments Throw {T} message.

(** The message of the only [throw] statement of the module. *)
Definition not_equal_length : string :=
  "talisman/metrics/distance/hamming: given sequences are not of equal length.".

(** Arrays are objects: a sequence argument that is an array is a
    reference into the store, and two references are [===] exactly when
    they are the same reference. *)
Definition loc := nat.

(** What an array holds at a position: [NaN], the one value that is not
    [===] to itself, or any other value.  [A] is the type of the other
    values, where [x === y] is [x = y]. *)
Inductive item (A : Type) : Type :=
| NaNItem
| Item (x : A).
Global Arguments NaNItem {A}.
Global Arguments Item {A} x.

(** A sequence argument ([@param {mixed}]): a string, which is a primitive
    compared by content, or an array, which is an object compared by
    reference.  The positions of a string hold its one-character strings,
    values of [A]; the positions of an array hold items. *)
Inductive sequence (A : Type) : Type :=
| Str (s : list A)
| Arr (l : loc).
Global Arguments Str {A} s.
Global Arguments Arr {A} l.

(** The store of array objects.  The module never writes to its
    arguments, so the store is only read. *)
Definition store (A : Type) : Type := loc → list (item A).

(** JavaScript numbers as the module produces them: a quotient of two
    non-negative integers, or one of the special values a division or a
    subtraction can give.  The quotient is kept exact and in lowest
    terms: the rounding of [/] and [-] to a binary64 value is left out. *)
Inductive number : Type :=
| NaN
| PInf
| NInf
| Fin (q : Q).

(** [x / y] for two non-negative integers. *)
Definition js_div (x y : nat) : number :=
  match y with
  | 0 => match x with 0 => NaN | S _ => PInf end
  | S _ => Fin (Qred (Z.of_nat x # Pos.of_nat y))
  end.

(** [1 - r]. *)
Definition one_minus (r : number) : number :=
  match r with
  | NaN => NaN
  | PInf => NInf
  | NInf => PInf
  | Fin q => Fin (Qred (1 - q))
  end.

(** A real number of the interval [0,1]. *)
Definition in_unit_interval (r : number) : Prop :=
  match r with
  | Fin q => (0 <= q)%Q ∧ (q <= 1)%Q
  | _ => False
  end.

Section Sequences.
Context {A : Type} `{EqDecision A}.

(** The items of a sequence. *)
Definition items (h : store A) (a : sequence A) : list (item A) :=
  match a with
  | Str s => Item <$> s
  | Arr l => h l
  end.

(** [a.length] *)
Definition js_length (h : store A) (a : sequence A) : nat :=
  length (items h a).

(** [a === b] on two sequence arguments. *)
Definition strict_equal (a b : sequence A) : bool :=
  match a, b with
  | Str s, Str t => bool_decide (s = t)
  | Arr l, Arr m => bool_decide (l = m)
  | _, _ => false
  end.

(** [x === y] on two values read from sequences: [NaN] is [===] to
    nothing, itself included.  An index that is out of range reads
    [undefined], here [None]; the loops of the module never do. *)
Definition item_strict_equal (x y : option (item A)) : bool :=
  match x, y with
  | Some (Item u), Some (Item v) => bool_decide (u = v)
  | None, None => true
  | _, _ => false
  end.

(** [xs[i] !== ys[i]] *)
Definition differ_at (xs ys : list (item A)) (i : nat) : bool :=
  negb (item_strict_equal (xs !! i) (ys !! i)).

(** The loop
    [for (let i = 0, l = a.length; i < l; i++) if (a[i] !== b[i]) distance++;]
    from index [i] on, with [n = l - i] iterations left. *)
Fixpoint scan (xs ys : list (item A)) (i n distance : nat) : nat :=
  match n with
  | 0 => distance
  | S n' =>
      scan xs ys (S i) n'
        (if differ_at xs ys i then S distance else distance)
  end.

(** [export default function hamming(a, b)] *)
Definition hamming (h : store A) (a b : sequence A) : result nat :=
  if strict_equal a b then Return 0
  else if negb (js_length h a =? js_length h b) then Throw not_equal_length
  else Return (scan (items h a) (items h b) 0 (js_length h a) 0).

(** [export function normalizedDistance(a, b)].  After the swap
    [a.length <= b.length], so the subtraction on [nat] is the one of the
    code. *)
Definition normalizedDistance (h : store A) (a b : sequence A) : number :=
  if strict_equal a b then Fin 0
  else
    let '(a, b) :=
      if js_length h b <? js_length h a then (b, a) else (a, b) in
    let distance := js_length h b - js_length h a in
    let distance := scan (items h a) (items h b) 0 (js_length h a) distance in
    js_div distance (js_length h b).

(** [export function normalizedSimilarity(a, b)] *)
Definition normalizedSimilarity (h : store A) (a b : sequence A) : number :=
  one_minus (normalizedDistance h a b).

(** *** What the functions are specified to compute *)

(** The number of positions [i], [0 <= i < n], where [xs[i] !== ys[i]]. *)
Definition mismatches (xs ys : list (item A)) (n : nat) : nat :=
  length (filter (λ i, differ_at xs ys i = true) (seq 0 n)).

(** The same count over the [n] positions from [i] on. *)
Definition mismatches_from (xs ys : list (item A)) (i n : nat) : nat :=
  length (filter (λ j, differ_at xs ys j = true) (seq i n)).

(** The gap between the lengths plus the mismatches of the common
    prefix, divided by the greater length. *)
Definition gap_and_mismatches_ratio (h : store A) (a b : sequence A) : number :=
  let la := js_length h a in
  let lb := js_length h b in
  js_div ((Nat.max la lb - Nat.min la lb)
          + mismatches (items h a) (items h b) (Nat.min la lb))
         (Nat.max la lb).

(** Whether [NaN] is among the items. *)
Definition holds_NaN (xs : list (item A)) : bool :=
  existsb (λ x, match x with NaNItem => true | Item _ => false end) xs.
End Sequences.

(** An ASCII string literal as a sequence: its characters are its UTF-16
    code units. *)
Definition str (s : string) : sequence ascii := Str (list_ascii_of_string s).

(** A store for calls that pass strings only. *)
Definition no_arrays {A : Type} : store A := λ _, [].

(** A store with the two arrays [[0, 1, 0, 1]] and [[1, 2, 0, 1]]. *)
Definition two_arrays : store nat :=
  λ l, match l with
       | 0 => Item <$> [0; 1; 0; 1]
       | _ => Item <$> [1; 2; 0; 1]
       end.

(** A store where every array is a separate [[NaN]]. *)
Definition NaN_arrays : store nat := λ _, [NaNItem].

(** ** The bitwise variant *)

(** The operands of [bitwise] are integers.  [^] and [&] first bring
    both operands into the signed 32-bit range (ECMAScript's [ToInt32]),
    work on the two 32-bit patterns, and read the resulting pattern as a
    signed 32-bit integer again. *)
Definition ToInt32 (z : Z) : Z :=
  let int32bit := (z mod 2 ^ 32)%Z in
  if (2 ^ 31 <=? int32bit)%Z then (int32bit - 2 ^ 32)%Z else int32bit.

(** [a ^ b] *)
Definition js_xor (a b : Z) : Z := ToInt32 (Z.lxor (ToInt32 a) (ToInt32 b)).

(** [a & b] *)
Definition js_and (a b : Z) : Z := ToInt32 (Z.land (ToInt32 a) (ToInt32 b)).

(** [while (xor) { d++; xor &= xor - 1; }] followed by [return d].
    [fuel] bounds the number of times the loop condition is evaluated;
    [None] means that it was not enough to reach the [return]. *)
Fixpoint bitwise_loop (fuel d : nat) (xor : Z) : option nat :=
  match fuel with
  | 0 => None
  | S fuel' =>
      if (xor =? 0)%Z then Some d
      else bitwise_loop fuel' (S d) (js_and xor (xor - 1))
  end.

(** [export function bitwise(a, b)] *)
Definition bitwise (fuel : nat) (a b : Z) : option nat :=
  bitwise_loop fuel 0 (js_xor a b).

(** The width of the bit patterns. *)
Definition bit_width : nat := 32.

(** The bit positions of a 32-bit pattern. *)
Definition bit_positions : list Z := seqZ 0 (Z.of_nat bit_width).

(** The number of bits set among the low 32 bits of [x].  On a negative
    [x], [Z.testbit] reads the two's-complement pattern. *)
Definition popcount (x : Z) : nat :=
  length (filter (λ i, Z.testbit x i = true) bit_positions).

(** The number of positions where the 32-bit patterns of [a] and [b]
    differ. *)
Definition differing_bits (a b : Z) : nat :=
  length (filter (λ i, Z.testbit a i ≠ Z.testbit b i) bit_positions).

(** The 32-bit pattern of [x] as a sequence of bits, least significant
    first. *)
Definition bits32 (x : Z) : list bool := (λ i, Z.testbit x i) <$> bit_positions.

(** The same count, least significant bit first, over [w] bits. *)
Fixpoint ones (w : nat) (x : Z) : nat :=
  match w with
  | 0 => 0
  | S w' => (if Z.odd x then 1 else 0) + ones w' (Z.div2 x)
  end.

(** * Properties *)

Example hamming_karolin_kathrin :
  hamming no_arrays (str "karolin") (str "kathrin") = Return 3.
Proof. reflexivity. Qed.

Example normalizedDistance_ab_abc :
  normalizedDistance no_arrays (str "ab") (str "abc") = Fin (1 # 3).
Proof. reflexivity. Qed.

Example hamming_same_NaN_array : hamming NaN_arrays (Arr 0) (Arr 0) = Return 0.
Proof. reflexivity. Qed.

Example hamming_two_NaN_arrays : hamming NaN_arrays (Arr 0) (Arr 1) = Return 1.
Proof. reflexivity. Qed.

Example hamming_two_arrays : hamming two_arrays (Arr 0) (Arr 1) = Return 2.
Proof. reflexivity. Qed.

Example hamming_abc_ab :
  hamming no_arrays (str "abc") (str "ab") = Throw not_equal_length.
Proof. reflexivity. Qed.

Example bitwise_1_2 : bitwise 33 1 2 = Some 2.
Proof. reflexivity. Qed.

Example bitwise_minus_1_0_out_of_fuel : bitwise 32 (-1) 0 = None.
Proof. vm_compute. reflexivity. Qed.

Example bitwise_min_int32 : bitwise 33 (- 2 ^ 31) 0 = Some 1.
Proof. vm_compute. reflexivity. Qed.

(** ** The scan *)

Section SequenceFacts.
Context {A : Type} `{EqDecision A}.
Implicit Types (h : store A) (a b c : sequence A) (xs ys zs : list (item A))
  (x y z : option (item A)).

Lemma strict_equal_eq a b : strict_equal a b = true ↔ a = b.
Proof.
  destruct a as [s|l], b as [t|m]; simpl;
    rewrite ?bool_decide_eq_true; split; congruence.
Qed.

Lemma strict_equal_refl a : strict_equal a a = true.
Proof. by apply strict_equal_eq. Qed.

Lemma strict_equal_sym a b : strict_equal a b = strict_equal b a.
Proof.
  destruct (strict_equal a b) eqn:E, (strict_equal b a) eqn:E'; try done.
  - apply strict_equal_eq in E as ->. by rewrite strict_equal_refl in E'.
  - apply strict_equal_eq in E' as ->. by rewrite strict_equal_refl in E.
Qed.

(** [===] on items is symmetric and transitive, relates equal values
    only, and relates every value but [NaN] to itself. *)
Lemma item_strict_equal_sym x y :
  item_strict_equal x y = item_strict_equal y x.
Proof.
  destruct x as [[|u]|], y as [[|v]|]; simpl; try done.
  apply bool_decide_ext. split; congruence.
Qed.

Lemma item_strict_equal_eq x y : item_strict_equal x y = true → x = y.
Proof.
  destruct x as [[|u]|], y as [[|v]|]; simpl; try done.
  by intros ->%bool_decide_eq_true.
Qed.

Lemma item_strict_equal_trans x y z :
  item_strict_equal x y = true → item_strict_equal y z = true →
  item_strict_equal x z = true.
Proof. by intros ->%item_strict_equal_eq. Qed.

Lemma item_strict_equal_refl x :
  x ≠ Some NaNItem → item_strict_equal x x = true.
Proof.
  destruct x as [[|u]|]; simpl; try done. intros _.
  by apply bool_decide_eq_true.
Qed.

Lemma holds_NaN_lookup xs i : holds_NaN xs = false → xs !! i ≠ Some NaNItem.
Proof.
  revert i. induction xs as [|e xs IH]; intros i; [done|].
  simpl. intros [He Hxs]%orb_false_iff. destruct i as [|i]; simpl.
  - by destruct e.
  - by apply IH.
Qed.

Lemma holds_NaN_Item (s : list A) : holds_NaN (Item <$> s) = false.
Proof. induction s as [|u s IH]; [done|]. by simpl. Qed.

Lemma holds_NaN_app xs ys :
  holds_NaN (xs ++ ys) = holds_NaN xs || holds_NaN ys.
Proof. apply existsb_app. Qed.

Lemma differ_at_sym xs ys i : differ_at xs ys i = differ_at ys xs i.
Proof. unfold differ_at. by rewrite item_strict_equal_sym. Qed.

Lemma differ_at_refl xs i : holds_NaN xs = false → differ_at xs xs i = false.
Proof.
  intros Hxs. unfold differ_at.
  by rewrite item_strict_equal_refl by by apply holds_NaN_lookup.
Qed.

(** Where [xs] and [zs] differ, [ys] differs from one of them. *)
Lemma differ_at_trans xs ys zs i :
  differ_at xs zs i = true →
  differ_at xs ys i = true ∨ differ_at ys zs i = true.
Proof.
  unfold differ_at. intros Hxz.
  destruct (item_strict_equal (xs !! i) (ys !! i)) eqn:Hxy; [|by left].
  destruct (item_strict_equal (ys !! i) (zs !! i)) eqn:Hyz; [|by right].
  by rewrite (item_strict_equal_trans _ _ _ Hxy Hyz) in Hxz.
Qed.

Lemma differ_at_false xs ys i :
  differ_at xs ys i = false →
  xs !! i = ys !! i ∧ xs !! i ≠ Some NaNItem.
Proof.
  unfold differ_at. intros Heq%negb_false_iff.
  split; [by apply item_strict_equal_eq|].
  intros Hx. by rewrite Hx in Heq.
Qed.

Lemma mismatches_from_0 xs ys i : mismatches_from xs ys i 0 = 0.
Proof. done. Qed.

Lemma mismatches_from_S xs ys i n :
  mismatches_from xs ys i (S n)
  = (if differ_at xs ys i then 1 else 0) + mismatches_from xs ys (S i) n.
Proof.
  unfold mismatches_from. simpl seq. rewrite filter_cons.
  by destruct (differ_at xs ys i).
Qed.

(** The loop adds to the running distance one for each mismatch it
    meets. *)
Lemma scan_mismatches xs ys n : ∀ i distance,
  scan xs ys i n distance = distance + mismatches_from xs ys i n.
Proof.
  induction n as [|n IH]; intros i distance.
  - rewrite mismatches_from_0. simpl. lia.
  - rewrite mismatches_from_S. simpl. rewrite IH.
    destruct (differ_at xs ys i); lia.
Qed.

Lemma scan_0 xs ys n distance :
  scan xs ys 0 n distance = distance + mismatches xs ys n.
Proof. apply scan_mismatches. Qed.

Lemma mismatches_from_sym xs ys n : ∀ i,
  mismatches_from xs ys i n = mismatches_from ys xs i n.
Proof.
  induction n as [|n IH]; intros i; [done|].
  by rewrite !mismatches_from_S, IH, differ_at_sym.
Qed.

Lemma mismatches_from_refl xs n : ∀ i,
  holds_NaN xs = false → mismatches_from xs xs i n = 0.
Proof.
  induction n as [|n IH]; intros i Hxs; [done|].
  by rewrite mismatches_from_S, IH, differ_at_refl.
Qed.

Lemma mismatches_from_triangle xs ys zs n : ∀ i,
  mismatches_from xs zs i n
  ≤ mismatches_from xs ys i n + mismatches_from ys zs i n.
Proof.
  induction n as [|n IH]; intros i; [done|].
  rewrite !mismatches_from_S. specialize (IH (S i)).
  pose proof (differ_at_trans xs ys zs i) as Ht.
  destruct (differ_at xs zs i); [|lia].
  destruct Ht as [-> | ->]; [done | lia | ].
  destruct (differ_at xs ys i); lia.
Qed.

Lemma mismatches_sym xs ys n : mismatches xs ys n = mismatches ys xs n.
Proof. apply mismatches_from_sym. Qed.

Lemma mismatches_refl xs n : holds_NaN xs = false → mismatches xs xs n = 0.
Proof. apply mismatches_from_refl. Qed.

Lemma mismatches_le xs ys n : mismatches xs ys n ≤ n.
Proof.
  unfold mismatches. etrans; [apply length_filter|]. by rewrite length_seq.
Qed.
End SequenceFacts.

(** ** [hamming] *)

Section HammingFacts.
Context {A : Type} `{EqDecision A}.
Implicit Types (h : store A) (a b c : sequence A).

(** The three ways through [hamming]. *)
Lemma hamming_same h a : hamming h a a = Return 0.
Proof. unfold hamming. by rewrite strict_equal_refl. Qed.

Lemma hamming_lengths_differ h a b :
  js_length h a ≠ js_length h b → hamming h a b = Throw not_equal_length.
Proof.
  intros Hne. unfold hamming.
  destruct (strict_equal a b) eqn:E.
  - apply strict_equal_eq in E as ->. done.
  - by apply Nat.eqb_neq in Hne as ->.
Qed.

Lemma hamming_scanned h a b :
  strict_equal a b = false → js_length h a = js_length h b →
  hamming h a b = Return (mismatches (items h a) (items h b) (js_length h a)).
Proof.
  intros Hne Heq. unfold hamming. rewrite Hne.
  apply Nat.eqb_eq in Heq as ->. simpl. by rewrite scan_0.
Qed.

(** What [hamming] does, in one equation. *)
Lemma hamming_cases h a b :
  hamming h a b
  = if strict_equal a b then Return 0
    else if decide (js_length h a = js_length h b)
         then Return (mismatches (items h a) (items h b) (js_length h a))
         else Throw not_equal_length.
Proof.
  destruct (strict_equal a b) eqn:E.
  - apply strict_equal_eq in E as ->. apply hamming_same.
  - destruct (decide _) as [Heq|Hne].
    + by apply hamming_scanned.
    + by apply hamming_lengths_differ.
Qed.

(** Taken on a sequence that holds no [NaN], the shortcut returns what
    the scan would have. *)
Lemma hamming_lengths_equal h a b :
  js_length h a = js_length h b →
  strict_equal a b = false ∨ holds_NaN (items h a) = false →
  hamming h a b = Return (mismatches (items h a) (items h b) (js_length h a)).
Proof.
  intros Heq Hor. destruct (strict_equal a b) eqn:E.
  - apply strict_equal_eq in E as ->. destruct Hor as [?|HNaN]; [done|].
    by rewrite hamming_same, mismatches_refl.
  - by apply hamming_scanned.
Qed.

Lemma hamming_returns h a b :
  js_length h a = js_length h b →
  hamming h a b
  = Return (if strict_equal a b then 0
            else mismatches (items h a) (items h b) (js_length h a)).
Proof.
  intros Heq. rewrite hamming_cases.
  destruct (strict_equal a b); [done|]. by rewrite decide_True.
Qed.

Lemma hamming_Return_inv h a b n :
  hamming h a b = Return n →
  js_length h a = js_length h b
  ∧ n = if strict_equal a b then 0
        else mismatches (items h a) (items h b) (js_length h a).
Proof.
  rewrite hamming_cases. destruct (strict_equal a b) eqn:E.
  - apply strict_equal_eq in E as ->. by intros [= <-].
  - destruct (decide _); [|done]. by intros [= <-].
Qed.
End HammingFacts.

(** ** Numbers *)

Lemma js_div_0 n : 0 < n → js_div 0 n = Fin 0.
Proof.
  destruct n as [|n]; [lia|]. reflexivity.
Qed.

Lemma js_div_le_in_unit_interval d n :
  d ≤ n → 0 < n → in_unit_interval (js_div d n).
Proof.
  destruct n as [|n]; [lia|]. intros Hle _. unfold js_div, in_unit_interval.
  rewrite !Qred_correct. unfold Qle. simpl. lia.
Qed.

Lemma one_minus_in_unit_interval r :
  in_unit_interval r → in_unit_interval (one_minus r).
Proof.
  destruct r as [| | |q]; simpl; try done. intros [H0 H1].
  rewrite !Qred_correct. split; lra.
Qed.

(** ** [normalizedDistance] and [normalizedSimilarity] *)

Section NormalizedFacts.
Context {A : Type} `{EqDecision A}.
Implicit Types (h : store A) (a b : sequence A).

Lemma normalizedDistance_same h a : normalizedDistance h a a = Fin 0.
Proof. unfold normalizedDistance. by rewrite strict_equal_refl. Qed.

(** Past the [a === b] test, the swap, the initial gap and the scan give
    the quotient of the specification, whatever the lengths. *)
Lemma normalizedDistance_scanned h a b :
  strict_equal a b = false →
  normalizedDistance h a b = gap_and_mismatches_ratio h a b.
Proof.
  intros Hne. unfold normalizedDistance, gap_and_mismatches_ratio.
  rewrite Hne. destruct (js_length h b <? js_length h a) eqn:Hlt.
  - apply Nat.ltb_lt in Hlt. rewrite scan_0, mismatches_sym.
    by rewrite Nat.max_l, Nat.min_r by lia.
  - apply Nat.ltb_ge in Hlt. rewrite scan_0.
    by rewrite Nat.max_r, Nat.min_l by lia.
Qed.

Lemma normalizedDistance_cases h a b :
  normalizedDistance h a b
  = if strict_equal a b then Fin 0 else gap_and_mismatches_ratio h a b.
Proof.
  destruct (strict_equal a b) eqn:E.
  - apply strict_equal_eq in E as ->. apply normalizedDistance_same.
  - by apply normalizedDistance_scanned.
Qed.

Lemma ratio_same h a :
  0 < js_length h a → holds_NaN (items h a) = false →
  gap_and_mismatches_ratio h a a = Fin 0.
Proof.
  intros Hpos HNaN. unfold gap_and_mismatches_ratio.
  rewrite mismatches_refl, Nat.max_id, Nat.min_id, Nat.sub_diag by done.
  by apply js_div_0.
Qed.

(** Taken on a non-empty sequence that holds no [NaN], the shortcut
    returns what the scan would have. *)
Lemma normalizedDistance_ratio h a b :
  0 < Nat.max (js_length h a) (js_length h b) →
  strict_equal a b = false ∨ holds_NaN (items h a) = false →
  normalizedDistance h a b = gap_and_mismatches_ratio h a b.
Proof.
  intros Hpos Hor. destruct (strict_equal a b) eqn:E.
  - apply strict_equal_eq in E as ->. rewrite Nat.max_id in Hpos.
    destruct Hor as [?|HNaN]; [done|].
    by rewrite normalizedDistance_same, ratio_same.
  - by apply normalizedDistance_scanned.
Qed.

Lemma ratio_in_unit_interval h a b :
  0 < Nat.max (js_length h a) (js_length h b) →
  in_unit_interval (gap_and_mismatches_ratio h a b).
Proof.
  intros Hpos. unfold gap_and_mismatches_ratio.
  apply js_div_le_in_unit_interval; [|done].
  pose proof (mismatches_le (items h a) (items h b)
                (Nat.min (js_length h a) (js_length h b))). lia.
Qed.

(** Two sequences that are not both empty are at a distance, and have a
    similarity, in [0,1]. *)
Lemma normalized_in_unit_interval h a b :
  0 < Nat.max (js_length h a) (js_length h b) →
  in_unit_interval (normalizedDistance h a b)
  ∧ in_unit_interval (normalizedSimilarity h a b).
Proof.
  intros Hpos. unfold normalizedSimilarity.
  assert (in_unit_interval (normalizedDistance h a b)) as Hd.
  { rewrite normalizedDistance_cases. destruct (strict_equal a b).
    - simpl. split; lra.
    - by apply ratio_in_unit_interval. }
  split; [|apply one_minus_in_unit_interval]; done.
Qed.

(** Two empty sequences that are not [===]: the quotient is [0 / 0]. *)
Lemma normalizedDistance_empty_distinct h a b :
  strict_equal a b = false → js_length h a = 0 → js_length h b = 0 →
  normalizedDistance h a b = NaN.
Proof.
  intros Hne Ha Hb. rewrite normalizedDistance_scanned by done.
  unfold gap_and_mismatches_ratio. by rewrite Ha, Hb.
Qed.

Lemma normalizedDistance_sym h a b :
  normalizedDistance h a b = normalizedDistance h b a.
Proof.
  destruct (strict_equal a b) eqn:E.
  - apply strict_equal_eq in E as ->. done.
  - rewrite (normalizedDistance_scanned h a b) by done.
    rewrite (normalizedDistance_scanned h b a) by (by rewrite strict_equal_sym).
    unfold gap_and_mismatches_ratio.
    by rewrite mismatches_sym, Nat.max_comm, Nat.min_comm.
Qed.
End NormalizedFacts.

(** ** 32-bit patterns *)

Section Int32Facts.
Local Open Scope Z_scope.
Implicit Types (x y z i : Z).

Lemma ToInt32_range z : - 2 ^ 31 ≤ ToInt32 z < 2 ^ 31.
Proof.
  unfold ToInt32. destruct (Z.leb_spec (2 ^ 31) (z mod 2 ^ 32));
    Z.div_mod_to_equations; lia.
Qed.

Lemma ToInt32_mod z : ToInt32 z mod 2 ^ 32 = z mod 2 ^ 32.
Proof.
  unfold ToInt32. destruct (Z.leb_spec (2 ^ 31) (z mod 2 ^ 32));
    Z.div_mod_to_equations; lia.
Qed.

Lemma ToInt32_small z : - 2 ^ 31 ≤ z < 2 ^ 31 → ToInt32 z = z.
Proof.
  intros Hz. unfold ToInt32.
  destruct (Z.leb_spec (2 ^ 31) (z mod 2 ^ 32));
    Z.div_mod_to_equations; lia.
Qed.

Lemma ToInt32_idemp z : ToInt32 (ToInt32 z) = ToInt32 z.
Proof. apply ToInt32_small, ToInt32_range. Qed.

(** [ToInt32] keeps the low 32 bits. *)
Lemma ToInt32_testbit z i : 0 ≤ i < 32 → Z.testbit (ToInt32 z) i = Z.testbit z i.
Proof.
  intros Hi.
  rewrite <- (Z.mod_pow2_bits_low (ToInt32 z) 32 i) by lia.
  rewrite ToInt32_mod. apply Z.mod_pow2_bits_low. lia.
Qed.

(** The loop condition: a 32-bit integer is falsy when its pattern is
    all zeros. *)
Lemma ToInt32_nonzero x : ToInt32 x = x → x ≠ 0 → x mod 2 ^ 32 ≠ 0.
Proof.
  intros Hx Hne Hmod. apply Hne. rewrite <- Hx. unfold ToInt32.
  by rewrite Hmod.
Qed.

Lemma elem_of_bit_positions i : i ∈ bit_positions ↔ 0 ≤ i < 32.
Proof. unfold bit_positions, bit_width. rewrite elem_of_seqZ. lia. Qed.

Lemma length_bit_positions : length bit_positions = bit_width.
Proof. unfold bit_positions. rewrite length_seqZ. lia. Qed.

Lemma length_filter_ext {B} (P1 P2 : B → Prop)
    `{!∀ e, Decision (P1 e), !∀ e, Decision (P2 e)} (l : list B) :
  (∀ e, e ∈ l → P1 e ↔ P2 e) →
  length (filter P1 l) = length (filter P2 l).
Proof.
  induction l as [|b l IH]; intros Hext; [done|].
  rewrite !filter_cons.
  assert (P1 b ↔ P2 b) as Hb by (apply Hext; left).
  assert (length (filter P1 l) = length (filter P2 l)) as Hl.
  { apply IH. intros e He. apply Hext. by right. }
  destruct (decide (P1 b)), (decide (P2 b)); simpl; tauto || lia.
Qed.

(** [popcount] reads the low 32 bits only. *)
Lemma popcount_ext x y :
  (∀ i, 0 ≤ i < 32 → Z.testbit x i = Z.testbit y i) → popcount x = popcount y.
Proof.
  intros Hbits. unfold popcount. apply length_filter_ext.
  intros i Hi%elem_of_bit_positions. by rewrite Hbits.
Qed.

Lemma differing_bits_ext x x' y y' :
  (∀ i, 0 ≤ i < 32 → Z.testbit x i = Z.testbit x' i) →
  (∀ i, 0 ≤ i < 32 → Z.testbit y i = Z.testbit y' i) →
  differing_bits x y = differing_bits x' y'.
Proof.
  intros Hx Hy. unfold differing_bits. apply length_filter_ext.
  intros i Hi%elem_of_bit_positions. by rewrite Hx, Hy.
Qed.

Lemma differing_bits_mod x y :
  differing_bits (x mod 2 ^ 32) (y mod 2 ^ 32) = differing_bits x y.
Proof.
  apply differing_bits_ext; intros i Hi; apply Z.mod_pow2_bits_low; lia.
Qed.

Lemma popcount_ToInt32 z : popcount (ToInt32 z) = popcount z.
Proof. apply popcount_ext, ToInt32_testbit. Qed.

Lemma popcount_le x : (popcount x ≤ bit_width)%nat.
Proof.
  unfold popcount. etrans; [apply length_filter|].
  by rewrite length_bit_positions.
Qed.

Lemma differing_bits_popcount x y : differing_bits x y = popcount (Z.lxor x y).
Proof.
  unfold differing_bits, popcount. f_equal. apply list_filter_iff.
  intros i. rewrite Z.lxor_spec.
  destruct (Z.testbit x i), (Z.testbit y i); simpl; split; congruence.
Qed.

Lemma popcount_js_xor x y : popcount (js_xor x y) = differing_bits x y.
Proof.
  rewrite differing_bits_popcount. unfold js_xor. rewrite popcount_ToInt32.
  apply popcount_ext. intros i Hi.
  by rewrite !Z.lxor_spec, !ToInt32_testbit.
Qed.

Lemma popcount_js_and x y : popcount (js_and x y) = popcount (Z.land x y).
Proof.
  unfold js_and. rewrite popcount_ToInt32.
  apply popcount_ext. intros i Hi.
  by rewrite !Z.land_spec, !ToInt32_testbit.
Qed.

(** Counting from position [s] up is counting the bits of [x >> s],
    least significant first. *)
Lemma count_bits_ones x (w : nat) : ∀ s, 0 ≤ s →
  length (filter (λ i, Z.testbit x i = true) (seqZ s (Z.of_nat w)))
  = ones w (Z.shiftr x s).
Proof.
  induction w as [|w IH]; intros s Hs; [done|].
  rewrite seqZ_cons by lia. rewrite filter_cons.
  replace (Z.pred (Z.of_nat (S w))) with (Z.of_nat w) by lia.
  simpl ones. rewrite Z.div2_spec, Z.shiftr_shiftr by lia.
  replace (s + 1) with (Z.succ s) by lia.
  rewrite <- Z.testbit_odd, <- IH by lia.
  destruct (decide (Z.testbit x s = true)) as [->|Hf]; [done|].
  by apply not_true_is_false in Hf as ->.
Qed.

Lemma popcount_ones x : popcount x = ones 32 x.
Proof.
  unfold popcount, bit_positions, bit_width.
  rewrite count_bits_ones by lia. by rewrite Z.shiftr_0_r.
Qed.
End Int32Facts.

(** ** The loop of [bitwise] *)

Section BitwiseFacts.
Local Open Scope Z_scope.
Implicit Types (x y : Z) (d fuel w : nat).

Lemma odd_land x y : Z.odd (Z.land x y) = Z.odd x && Z.odd y.
Proof. by rewrite <- !Z.bit0_odd, Z.land_spec. Qed.

Lemma div2_land x y : Z.div2 (Z.land x y) = Z.land (Z.div2 x) (Z.div2 y).
Proof. by rewrite !Z.div2_spec, Z.shiftr_land. Qed.

Lemma odd_pred x : Z.odd (x - 1) = negb (Z.odd x).
Proof. rewrite Z.odd_sub. simpl. apply xorb_true_r. Qed.

Lemma div2_pred x :
  Z.div2 (x - 1) = if Z.odd x then Z.div2 x else Z.div2 x - 1.
Proof.
  pose proof (Z.div2_odd x) as Hx. pose proof (Z.div2_odd (x - 1)) as Hp.
  rewrite odd_pred in Hp. destruct (Z.odd x); simpl in *; lia.
Qed.

(** [x & (x - 1)] clears the lowest bit that is set in [x]: as long as
    one of the low [w] bits is set, one bit fewer is. *)
Lemma ones_clear_lowest w : ∀ x,
  x mod 2 ^ Z.of_nat w ≠ 0 → ones w x = S (ones w (Z.land x (x - 1))).
Proof.
  induction w as [|w IH]; intros x Hx.
  - rewrite Z.mod_1_r in Hx. done.
  - simpl ones. rewrite odd_land, div2_land, odd_pred, div2_pred.
    pose proof (Z.div2_odd x) as Hdiv.
    destruct (Z.odd x) eqn:Hodd; simpl.
    + by rewrite Z.land_diag.
    + rewrite <- IH; [done|]. intros Hmod. apply Hx.
      rewrite Hdiv. simpl. rewrite Z.add_0_r, Nat2Z.inj_succ, Z.pow_succ_r by lia.
      rewrite Z.mul_mod_distr_l by lia. lia.
Qed.

Lemma popcount_clear_lowest x :
  ToInt32 x = x → x ≠ 0 → popcount x = S (popcount (js_and x (x - 1))).
Proof.
  intros Hx Hne. rewrite popcount_js_and, !popcount_ones.
  apply (ones_clear_lowest 32). by apply ToInt32_nonzero.
Qed.

(** The loop on a 32-bit integer [x] evaluates its condition
    [popcount x + 1] times and then returns, having added [popcount x]
    to [d]. *)
Lemma bitwise_loop_popcount fuel : ∀ d x,
  ToInt32 x = x →
  bitwise_loop fuel d x
  = if (popcount x <? fuel)%nat then Some (d + popcount x)%nat else None.
Proof.
  induction fuel as [|fuel IH]; intros d x Hx; [done|].
  simpl. destruct (Z.eqb_spec x 0) as [->|Hne].
  - change (popcount 0) with 0%nat. simpl. f_equal. lia.
  - rewrite IH by apply ToInt32_idemp.
    rewrite (popcount_clear_lowest x) by done.
    change (S ?n <? S fuel)%nat with (n <? fuel)%nat.
    destruct (_ <? fuel)%nat; [f_equal; lia | done].
Qed.

Lemma bitwise_differing_bits fuel a b :
  bitwise fuel a b
  = if (differing_bits a b <? fuel)%nat then Some (differing_bits a b) else None.
Proof.
  unfold bitwise. rewrite bitwise_loop_popcount by apply ToInt32_idemp.
  by rewrite popcount_js_xor.
Qed.

Lemma differing_bits_le a b : (differing_bits a b ≤ bit_width)%nat.
Proof. rewrite differing_bits_popcount. apply popcount_le. Qed.

Lemma differing_bits_sym a b : differing_bits a b = differing_bits b a.
Proof. by rewrite !differing_bits_popcount, Z.lxor_comm. Qed.

(** More than [bit_width] evaluations of the condition are never
    needed. *)
Lemma bitwise_enough_fuel fuel a b :
  (bit_width < fuel)%nat → bitwise fuel a b = Some (differing_bits a b).
Proof.
  intros Hfuel. rewrite bitwise_differing_bits.
  pose proof (differing_bits_le a b).
  by rewrite (proj2 (Nat.ltb_lt _ _)) by lia.
Qed.
End BitwiseFacts.

(** * The claims *)

(** C1, as stated, at an array that holds [NaN] passed as both
    arguments: the [a === b] test returns 0, while the one position
    differs, [NaN !== NaN]. *)
Lemma hamming_same_NaN_array_not_mismatches :
  js_length NaN_arrays (Arr 0) = js_length NaN_arrays (Arr 0)
  ∧ hamming NaN_arrays (Arr 0) (Arr 0)
    ≠ Return (mismatches (items NaN_arrays (Arr 0)) (items NaN_arrays (Arr 0))
                (js_length NaN_arrays (Arr 0))).
Proof. split; [reflexivity|]. vm_compute. discriminate. Qed.

(** The same array twice and two arrays with the same items are not at
    the same distance: no count that reads the items only is returned
    for every pair. *)
Lemma hamming_NaN_array_and_copy :
  items NaN_arrays (Arr 1) = items NaN_arrays (Arr 0)
  ∧ hamming NaN_arrays (Arr 0) (Arr 0) = Return 0
  ∧ hamming NaN_arrays (Arr 0) (Arr 1) = Return 1.
Proof. repeat split. Qed.

(** C1, amended: on two sequences of equal length that are not [===],
    or that hold no [NaN], [hamming] returns the number of positions [i],
    [0 <= i < length a], where [a[i] !== b[i]]; on two arguments that are
    [===] it returns 0; and [hamming("karolin", "kathrin")] is 3. *)
Theorem hamming_counts_mismatches :
  (∀ (A : Type) (eq_dec : EqDecision A) (h : store A) (a b : sequence A),
      js_length h a = js_length h b →
      strict_equal a b = false ∨ holds_NaN (items h a) = false →
      hamming h a b
      = Return (mismatches (items h a) (items h b) (js_length h a)))
  ∧ (∀ (A : Type) (eq_dec : EqDecision A) (h : store A) (a b : sequence A),
      strict_equal a b = true → hamming h a b = Return 0)
  ∧ hamming no_arrays (str "karolin") (str "kathrin") = Return 3.
Proof.
  split; [|split; [|reflexivity]].
  - intros A eq_dec h a b. apply hamming_lengths_equal.
  - intros A eq_dec h a b ->%strict_equal_eq. apply hamming_same.
Qed.

Lemma hamming_counts_mismatches_witness :
  (js_length two_arrays (Arr 0) = js_length two_arrays (Arr 1)
   ∧ hamming two_arrays (Arr 0) (Arr 1)
     = Return (mismatches (items two_arrays (Arr 0)) (items two_arrays (Arr 1))
                 (js_length two_arrays (Arr 0))))
  ∧ hamming NaN_arrays (Arr 0) (Arr 1)
    = Return (mismatches (items NaN_arrays (Arr 0)) (items NaN_arrays (Arr 1))
                (js_length NaN_arrays (Arr 0)))
  ∧ hamming NaN_arrays (Arr 0) (Arr 0) = Return 0.
Proof.
  split; [split; [reflexivity|] | split].
  - apply (proj1 hamming_counts_mismatches); [reflexivity|]. right. reflexivity.
  - apply (proj1 hamming_counts_mismatches); [reflexivity|]. left. reflexivity.
  - apply (proj1 (proj2 hamming_counts_mismatches)). reflexivity.
Defined.

(** C2: [hamming] throws, with the message of the length check, exactly
    when the two lengths differ, so it returns no number then, computed
    from a truncated or padded argument or otherwise; on equal lengths it
    returns a number; it throws nothing else.  The other three functions
    contain no [throw]: [normalizedDistance] and [normalizedSimilarity]
    are total in the embedding, and [bitwise] returns as soon as the fuel
    exceeds the bit width. *)
Theorem hamming_throws_iff_lengths_differ :
  (∀ (A : Type) (eq_dec : EqDecision A) (h : store A) (a b : sequence A),
      (hamming h a b = Throw not_equal_length
       ↔ js_length h a ≠ js_length h b)
      ∧ (js_length h a = js_length h b → ∃ n, hamming h a b = Return n)
      ∧ (∀ message, hamming h a b = Throw message → message = not_equal_length))
  ∧ (∀ (fuel : nat) (x y : Z), bit_width < fuel → is_Some (bitwise fuel x y)).
Proof.
  split.
  - intros A eq_dec h a b.
    destruct (decide (js_length h a = js_length h b)) as [Heq|Hne].
    + rewrite (hamming_returns h a b Heq). repeat split; try done.
      by eexists.
    + rewrite (hamming_lengths_differ h a b Hne). repeat split; try done.
      congruence.
  - intros fuel x y Hfuel. rewrite bitwise_enough_fuel by done. by eexists.
Qed.

Lemma hamming_throws_iff_lengths_differ_witness :
  (js_length no_arrays (str "abc") ≠ js_length no_arrays (str "ab")
   ∧ hamming no_arrays (str "abc") (str "ab") = Throw not_equal_length)
  ∧ (js_length two_arrays (Arr 0) = js_length two_arrays (Arr 1)
     ∧ ∃ n, hamming two_arrays (Arr 0) (Arr 1) = Return n)
  ∧ (bit_width < 33 ∧ is_Some (bitwise 33 1 2)).
Proof.
  assert (js_length no_arrays (str "abc") ≠ js_length no_arrays (str "ab"))
    as Hne by (vm_compute; lia).
  assert (bit_width < 33) as Hfuel by (unfold bit_width; lia).
  split; [split | split; split].
  - exact Hne.
  - apply (proj1 hamming_throws_iff_lengths_differ). exact Hne.
  - reflexivity.
  - apply (proj1 hamming_throws_iff_lengths_differ). reflexivity.
  - exact Hfuel.
  - apply (proj2 hamming_throws_iff_lengths_differ). exact Hfuel.
Defined.

(** C3, as stated, at two empty strings: [normalizedDistance("", "")]
    returns 0 at the [a === b] test, while the gap plus the mismatches
    divided by the greater length is [0 / 0]. *)
Lemma normalizedDistance_empty_strings_not_ratio :
  normalizedDistance no_arrays (str "") (str "")
  ≠ gap_and_mismatches_ratio no_arrays (str "") (str "").
Proof. vm_compute. discriminate. Qed.

(** C3, as stated, at an array that holds [NaN] passed as both
    arguments: [normalizedDistance] returns 0 while the stated quotient
    is 1/1. *)
Lemma normalizedDistance_same_NaN_array_not_ratio :
  normalizedDistance NaN_arrays (Arr 0) (Arr 0) = Fin 0
  ∧ gap_and_mismatches_ratio NaN_arrays (Arr 0) (Arr 0) = Fin 1.
Proof. split; reflexivity. Qed.

(** C3, amended: for two sequences that are not both empty, and that are
    not [===] or hold no [NaN], [normalizedDistance] is the gap between
    the lengths plus the number of positions of the shorter one where the
    items are [!==], divided by the greater length; on two arguments that
    are [===] it returns 0; [normalizedDistance("ab", "abc")] is 1/3 and
    [normalizedSimilarity("ab", "abc")] is [1 - 1/3]. *)
Theorem normalizedDistance_ratio_not_both_empty :
  (∀ (A : Type) (eq_dec : EqDecision A) (h : store A) (a b : sequence A),
      0 < Nat.max (js_length h a) (js_length h b) →
      strict_equal a b = false ∨ holds_NaN (items h a) = false →
      normalizedDistance h a b = gap_and_mismatches_ratio h a b)
  ∧ (∀ (A : Type) (eq_dec : EqDecision A) (h : store A) (a b : sequence A),
      strict_equal a b = true → normalizedDistance h a b = Fin 0)
  ∧ normalizedDistance no_arrays (str "ab") (str "abc") = js_div 1 3
  ∧ normalizedSimilarity no_arrays (str "ab") (str "abc")
    = one_minus (js_div 1 3).
Proof.
  split; [|split; [|split]].
  - intros A eq_dec h a b. apply normalizedDistance_ratio.
  - intros A eq_dec h a b ->%strict_equal_eq. apply normalizedDistance_same.
  - reflexivity.
  - reflexivity.
Qed.

Lemma normalizedDistance_ratio_not_both_empty_witness :
  (0 < Nat.max (js_length two_arrays (Arr 0)) (js_length two_arrays (Str [0; 1]))
   ∧ normalizedDistance two_arrays (Arr 0) (Str [0; 1])
     = gap_and_mismatches_ratio two_arrays (Arr 0) (Str [0; 1]))
  ∧ normalizedDistance NaN_arrays (Arr 0) (Arr 1)
    = gap_and_mismatches_ratio NaN_arrays (Arr 0) (Arr 1)
  ∧ normalizedDistance NaN_arrays (Arr 0) (Arr 0) = Fin 0.
Proof.
  assert (0 < Nat.max (js_length two_arrays (Arr 0))
                (js_length two_arrays (Str [0; 1]))) as Hpos
    by (vm_compute; lia).
  split; [split; [exact Hpos|] | split].
  - apply (proj1 normalizedDistance_ratio_not_both_empty); [exact Hpos|].
    left. reflexivity.
  - apply (proj1 normalizedDistance_ratio_not_both_empty);
      [vm_compute; lia | left; reflexivity].
  - apply (proj1 (proj2 normalizedDistance_ratio_not_both_empty)).
    reflexivity.
Defined.

(** C4, where the code departs from it: two empty arrays that are
    distinct objects are both empty, and [normalizedDistance] returns
    [NaN] for them, the quotient [0 / 0], not 0. *)
Theorem normalizedDistance_empty_arrays :
  js_length (A:=nat) no_arrays (Arr 0) = 0
  ∧ js_length (A:=nat) no_arrays (Arr 1) = 0
  ∧ normalizedDistance (A:=nat) no_arrays (Arr 0) (Arr 1) = NaN.
Proof. repeat split. Qed.

(** C5, where the code departs from it: for two empty arrays that are
    distinct objects, neither [normalizedDistance] nor
    [normalizedSimilarity] is a number of the interval [0,1]. *)
Theorem normalized_empty_arrays_outside_unit_interval :
  ¬ in_unit_interval (normalizedDistance (A:=nat) no_arrays (Arr 0) (Arr 1))
  ∧ ¬ in_unit_interval (normalizedSimilarity (A:=nat) no_arrays (Arr 0) (Arr 1)).
Proof. split; vm_compute; tauto. Qed.

(** C8: for sequences of equal length, [hamming] satisfies the triangle
    inequality; and [hamming(a, b)] is [hamming(b, a)]. *)
Theorem hamming_triangle_and_symmetry :
  (∀ (A : Type) (eq_dec : EqDecision A) (h : store A) (a b c : sequence A),
      js_length h a = js_length h b → js_length h b = js_length h c →
      ∃ ac ab bc : nat,
        hamming h a c = Return ac ∧ hamming h a b = Return ab
        ∧ hamming h b c = Return bc ∧ ac ≤ ab + bc)
  ∧ (∀ (A : Type) (eq_dec : EqDecision A) (h : store A) (a b : sequence A),
      js_length h a = js_length h b → hamming h a b = hamming h b a).
Proof.
  split.
  - intros A eq_dec h a b c Hab Hbc.
    rewrite (hamming_returns h a c), (hamming_returns h a b),
      (hamming_returns h b c) by congruence.
    do 3 eexists. repeat split.
    destruct (strict_equal a c) eqn:Eac; [lia|].
    destruct (strict_equal a b) eqn:Eab.
    { apply strict_equal_eq in Eab as ->. rewrite Eac. lia. }
    destruct (strict_equal b c) eqn:Ebc.
    { apply strict_equal_eq in Ebc as ->. lia. }
    rewrite <- Hab. apply mismatches_from_triangle.
  - intros A eq_dec h a b Hab.
    rewrite (hamming_returns h a b), (hamming_returns h b a) by congruence.
    by rewrite strict_equal_sym, mismatches_sym, Hab.
Qed.

Lemma hamming_triangle_and_symmetry_witness :
  (∃ ac ab bc : nat,
      hamming two_arrays (Arr 0) (Str [0; 2; 0; 2]) = Return ac
      ∧ hamming two_arrays (Arr 0) (Arr 1) = Return ab
      ∧ hamming two_arrays (Arr 1) (Str [0; 2; 0; 2]) = Return bc
      ∧ ac ≤ ab + bc)
  ∧ hamming two_arrays (Arr 0) (Arr 1) = hamming two_arrays (Arr 1) (Arr 0).
Proof.
  split.
  - apply (proj1 hamming_triangle_and_symmetry); reflexivity.
  - apply (proj2 hamming_triangle_and_symmetry); reflexivity.
Defined.

(** C9: [normalizedDistance(a, b)] is [normalizedDistance(b, a)] for
    every two sequences, and so is [normalizedSimilarity]. *)
Theorem normalizedDistance_symmetric :
  ∀ (A : Type) (eq_dec : EqDecision A) (h : store A) (a b : sequence A),
    normalizedDistance h a b = normalizedDistance h b a
    ∧ normalizedSimilarity h a b = normalizedSimilarity h b a.
Proof.
  intros A eq_dec h a b. unfold normalizedSimilarity.
  by rewrite (normalizedDistance_sym h a b).
Qed.

(** C6: [bitwise(a, b)] is the number of bits set in [a XOR b], which is
    the number of positions where the 32-bit patterns of [a] and [b]
    differ; [bitwise(1, 2)] is 2; and [bitwise(a, b)] is [bitwise(b, a)]. *)
Theorem bitwise_is_popcount_of_xor :
  (∀ (fuel : nat) (a b : Z),
      bit_width < fuel →
      bitwise fuel a b = Some (popcount (Z.lxor a b))
      ∧ popcount (Z.lxor a b) = differing_bits a b)
  ∧ (∀ fuel : nat, bit_width < fuel → bitwise fuel 1 2 = Some 2)
  ∧ (∀ (fuel : nat) (a b : Z), bitwise fuel a b = bitwise fuel b a).
Proof.
  split; [|split].
  - intros fuel a b Hfuel. rewrite <- differing_bits_popcount.
    split; [by apply bitwise_enough_fuel | done].
  - intros fuel Hfuel. by rewrite bitwise_enough_fuel.
  - intros fuel a b. by rewrite !bitwise_differing_bits, differing_bits_sym.
Qed.

Lemma bitwise_is_popcount_of_xor_witness :
  bit_width < 33
  ∧ bitwise 33 (-6) 9 = Some (popcount (Z.lxor (-6) 9))
  ∧ bitwise 33 1 2 = Some 2.
Proof.
  assert (bit_width < 33) as Hfuel by (unfold bit_width; lia).
  split; [exact Hfuel|]. split.
  - apply (proj1 bitwise_is_popcount_of_xor). exact Hfuel.
  - apply (proj1 (proj2 bitwise_is_popcount_of_xor)). exact Hfuel.
Defined.

(** C7: for every two operands, negative ones included, the loop of
    [bitwise] stops: there is a [d], at most the bit width, such that the
    loop condition holds [d] times and fails the next time, whereupon [d]
    is returned.  [d] is a natural number. *)
Theorem bitwise_terminates_within_bit_width :
  ∀ a b : Z, ∃ d : nat,
    d ≤ bit_width
    ∧ ∀ fuel : nat, bitwise fuel a b = if d <? fuel then Some d else None.
Proof.
  intros a b. exists (differing_bits a b).
  split; [apply differing_bits_le | intros fuel; apply bitwise_differing_bits].
Qed.

(** C10: [bitwise] works on the 32-bit two's-complement patterns of its
    operands: they are brought into the signed 32-bit range before the
    XOR, the result is the number of positions where the low 32 bits of
    the operands differ, two operands that agree modulo 2^32 give the
    same result, and [bitwise(-1, 0)] is 32. *)
Theorem bitwise_reads_low_32_bits :
  (∀ (fuel : nat) (a b : Z),
      bitwise fuel a b = bitwise fuel (ToInt32 a) (ToInt32 b))
  ∧ (∀ (fuel : nat) (a b : Z),
        bit_width < fuel →
        bitwise fuel a b
        = Some (differing_bits (a mod 2 ^ 32)%Z (b mod 2 ^ 32)%Z))
  ∧ (∀ (fuel : nat) (a a' b b' : Z),
        (a mod 2 ^ 32 = a' mod 2 ^ 32)%Z → (b mod 2 ^ 32 = b' mod 2 ^ 32)%Z →
        bitwise fuel a b = bitwise fuel a' b')
  ∧ (∀ fuel : nat, bit_width < fuel → bitwise fuel (-1) 0 = Some 32).
Proof.
  split; [|split; [|split]].
  - intros fuel a b. unfold bitwise, js_xor. by rewrite !ToInt32_idemp.
  - intros fuel a b Hfuel.
    by rewrite differing_bits_mod, bitwise_enough_fuel.
  - intros fuel a a' b b' Ha Hb. unfold bitwise, js_xor, ToInt32.
    by rewrite Ha, Hb.
  - intros fuel Hfuel. by rewrite bitwise_enough_fuel.
Qed.

Lemma bitwise_reads_low_32_bits_witness :
  bitwise 33 (2 ^ 32 + 5) (- 2 ^ 32) = bitwise 33 5 0
  ∧ bitwise 33 (2 ^ 32 + 5) (- 2 ^ 32) = Some (differing_bits 5 0)
  ∧ bitwise 33 (-1) 0 = Some 32.
Proof.
  assert (bit_width < 33) as Hfuel by (unfold bit_width; lia).
  split; [|split].
  - apply (proj1 (proj2 (proj2 bitwise_reads_low_32_bits))); reflexivity.
  - apply (proj1 (proj2 bitwise_reads_low_32_bits) 33 (2 ^ 32 + 5)%Z (- 2 ^ 32)%Z).
    exact Hfuel.
  - apply (proj2 (proj2 (proj2 bitwise_reads_low_32_bits))). exact Hfuel.
Defined.

(** * Further properties *)

(** ** More on the scan *)

Section ScanFacts.
Context {A : Type} `{EqDecision A}.
Implicit Types (h : store A) (a b : sequence A) (xs ys : list (item A)).

Lemma holds_NaN_false xs :
  (∀ j, j < length xs → xs !! j ≠ Some NaNItem) → holds_NaN xs = false.
Proof.
  induction xs as [|e xs IH]; intros Hall; [done|]. simpl.
  apply orb_false_iff. split.
  - destruct e; [|done]. by destruct (Hall 0); [simpl; lia|].
  - apply IH. intros j Hj. apply (Hall (S j)). simpl. lia.
Qed.

(** No mismatch among the positions scanned: they all agree. *)
Lemma mismatches_from_0_iff xs ys n : ∀ i,
  mismatches_from xs ys i n = 0 ↔ ∀ j, i ≤ j < i + n → differ_at xs ys j = false.
Proof.
  induction n as [|n IH]; intros i.
  - split; [intros _ j; lia | done].
  - rewrite mismatches_from_S. split.
    + intros Hsum j Hj.
      destruct (differ_at xs ys i) eqn:Hd; [lia|].
      destruct (decide (j = i)) as [->|Hne]; [done|].
      apply (proj1 (IH (S i))); lia.
    + intros Hall. rewrite (Hall i) by lia.
      apply (proj2 (IH (S i))). intros j Hj. apply Hall. lia.
Qed.

(** No mismatch over the whole length: the same items, and no [NaN]
    among them. *)
Lemma mismatches_0_same xs ys :
  length xs = length ys → mismatches xs ys (length xs) = 0 →
  xs = ys ∧ holds_NaN xs = false.
Proof.
  intros Hlen Hzero.
  pose proof (proj1 (mismatches_from_0_iff xs ys (length xs) 0) Hzero) as Hall.
  split.
  - apply list_eq. intros j.
    destruct (decide (j < length xs)) as [Hlt|Hge].
    + apply (differ_at_false xs ys j). apply Hall. lia.
    + rewrite !lookup_ge_None_2 by lia. done.
  - apply holds_NaN_false. intros j Hj.
    apply (differ_at_false xs ys j). apply Hall. lia.
Qed.

(** Past a common-length prefix, the scan of two concatenations is the
    scan of the two suffixes. *)
Lemma mismatches_from_app xs1 xs2 ys1 ys2 n : ∀ i,
  length xs1 = length ys1 →
  mismatches_from (xs1 ++ xs2) (ys1 ++ ys2) (length xs1 + i) n
  = mismatches_from xs2 ys2 i n.
Proof.
  induction n as [|n IH]; intros i Hlen; [done|].
  rewrite !mismatches_from_S.
  replace (S (length xs1 + i)) with (length xs1 + S i) by lia.
  rewrite IH by done. f_equal. unfold differ_at.
  rewrite (lookup_app_r xs1) by lia. rewrite (lookup_app_r ys1) by lia.
  rewrite <- Hlen. by replace (length xs1 + i - length xs1) with i by lia.
Qed.

Lemma mismatches_from_prefix xs1 xs2 ys1 ys2 n : ∀ i,
  i + n ≤ length xs1 → length xs1 = length ys1 →
  mismatches_from (xs1 ++ xs2) (ys1 ++ ys2) i n = mismatches_from xs1 ys1 i n.
Proof.
  induction n as [|n IH]; intros i Hi Hlen; [done|].
  rewrite !mismatches_from_S, IH by lia. f_equal. unfold differ_at.
  by rewrite !lookup_app_l by lia.
Qed.

Lemma mismatches_from_split xs ys n m : ∀ i,
  mismatches_from xs ys i (n + m)
  = mismatches_from xs ys i n + mismatches_from xs ys (i + n) m.
Proof.
  induction n as [|n IH]; intros i.
  - by rewrite Nat.add_0_r.
  - simpl Nat.add at 1. rewrite !mismatches_from_S, IH.
    replace (S i + n) with (i + S n) by lia. lia.
Qed.

Lemma mismatches_app xs1 xs2 ys1 ys2 :
  length xs1 = length ys1 →
  mismatches (xs1 ++ xs2) (ys1 ++ ys2) (length xs1 + length xs2)
  = mismatches xs1 ys1 (length xs1) + mismatches xs2 ys2 (length xs2).
Proof.
  intros Hlen. change (mismatches ?u ?v ?k) with (mismatches_from u v 0 k).
  rewrite mismatches_from_split, mismatches_from_prefix by (done || lia).
  f_equal. rewrite <- (mismatches_from_app xs1 xs2 ys1 ys2) by done.
  f_equal. lia.
Qed.

(** Two sequences that differ in one item at most. *)
Lemma mismatches_middle xs1 xs2 (y x : item A) :
  holds_NaN xs1 = false → holds_NaN xs2 = false →
  mismatches (xs1 ++ y :: xs2) (xs1 ++ x :: xs2) (length (xs1 ++ y :: xs2))
  = if item_strict_equal (Some y) (Some x) then 0 else 1.
Proof.
  intros H1 H2. rewrite length_app, mismatches_app, mismatches_refl by done.
  change (y :: xs2) with ([y] ++ xs2). change (x :: xs2) with ([x] ++ xs2).
  rewrite length_app, mismatches_app, (mismatches_refl xs2) by done.
  change (mismatches [y] [x] (length [y])) with (mismatches_from [y] [x] 0 1).
  rewrite mismatches_from_S, mismatches_from_0. unfold differ_at.
  change ([y] !! 0) with (Some y). change ([x] !! 0) with (Some x).
  by destruct (item_strict_equal (Some y) (Some x)).
Qed.

Lemma mismatches_prefix xs ys :
  holds_NaN xs = false → mismatches xs (xs ++ ys) (length xs) = 0.
Proof.
  intros Hxs. change (mismatches ?u ?v ?k) with (mismatches_from u v 0 k).
  rewrite <- (app_nil_r xs) at 1.
  rewrite mismatches_from_prefix by (done || lia).
  by apply mismatches_from_refl.
Qed.

(** On a first argument that holds no [NaN], the shortcut of [hamming]
    cannot be told from the scan. *)
Lemma hamming_no_NaN h a b :
  holds_NaN (items h a) = false →
  hamming h a b
  = if decide (js_length h a = js_length h b)
    then Return (mismatches (items h a) (items h b) (js_length h a))
    else Throw not_equal_length.
Proof.
  intros HNaN. destruct (decide _) as [Heq|Hne].
  - apply hamming_lengths_equal; auto.
  - by apply hamming_lengths_differ.
Qed.

Lemma strict_equal_same_length h a b :
  js_length h a ≠ js_length h b → strict_equal a b = false.
Proof.
  intros Hne. destruct (strict_equal a b) eqn:E; [|done].
  apply strict_equal_eq in E as ->. done.
Qed.

(** The numerator of the quotient never exceeds its denominator. *)
Lemma ratio_numerator_le h a b :
  Nat.max (js_length h a) (js_length h b)
  - Nat.min (js_length h a) (js_length h b)
  + mismatches (items h a) (items h b)
      (Nat.min (js_length h a) (js_length h b))
  ≤ Nat.max (js_length h a) (js_length h b).
Proof.
  pose proof (mismatches_le (items h a) (items h b)
                (Nat.min (js_length h a) (js_length h b))). lia.
Qed.
End ScanFacts.

(** ** [hamming] as a distance on the items *)

(** X1: [hamming] returns 0 exactly when its arguments are [===], or
    hold the same items and no [NaN] among them. *)
Theorem hamming_zero_iff_same_items :
  ∀ (A : Type) (eq_dec : EqDecision A) (h : store A) (a b : sequence A),
    hamming h a b = Return 0
    ↔ strict_equal a b = true
      ∨ (items h a = items h b ∧ holds_NaN (items h a) = false).
Proof.
  intros A eq_dec h a b. rewrite hamming_cases.
  destruct (strict_equal a b) eqn:E; [by split; auto|].
  unfold js_length. split.
  - destruct (decide _) as [Hlen|]; [|done]. intros [= Hzero].
    right. by apply mismatches_0_same.
  - intros [?|[Hitems HNaN]]; [done|]. rewrite <- Hitems.
    rewrite decide_True by done. by rewrite mismatches_refl.
Qed.

Lemma hamming_zero_iff_same_items_witness :
  (items two_arrays (Arr 0) = items two_arrays (Str [0; 1; 0; 1])
   ∧ holds_NaN (items two_arrays (Arr 0)) = false)
  ∧ hamming two_arrays (Arr 0) (Str [0; 1; 0; 1]) = Return 0.
Proof.
  assert (items two_arrays (Arr 0) = items two_arrays (Str [0; 1; 0; 1])
          ∧ holds_NaN (items two_arrays (Arr 0)) = false) as Hsame
    by (split; reflexivity).
  split; [exact Hsame|].
  apply (proj2 (hamming_zero_iff_same_items nat _ two_arrays (Arr 0)
                  (Str [0; 1; 0; 1]))).
  right. exact Hsame.
Defined.

(** X2: a number returned by [hamming] is at most the common length of
    the two sequences. *)
Theorem hamming_at_most_length :
  ∀ (A : Type) (eq_dec : EqDecision A) (h : store A) (a b : sequence A)
    (n : nat),
    hamming h a b = Return n →
    js_length h a = js_length h b ∧ n ≤ js_length h a.
Proof.
  intros A eq_dec h a b n [Hlen ->]%hamming_Return_inv.
  split; [done|]. destruct (strict_equal a b); [lia | apply mismatches_le].
Qed.

Lemma hamming_at_most_length_witness :
  hamming two_arrays (Arr 0) (Arr 1) = Return 2
  ∧ js_length two_arrays (Arr 0) = js_length two_arrays (Arr 1)
  ∧ 2 ≤ js_length two_arrays (Arr 0).
Proof.
  split; [reflexivity|].
  apply (hamming_at_most_length nat _ two_arrays (Arr 0) (Arr 1) 2).
  reflexivity.
Defined.

(** X3: when the first argument holds no [NaN], the outcome of
    [hamming] depends on the items of its arguments only: strings or
    arrays, the same object twice or two copies, the [a === b] shortcut
    changes nothing. *)
Theorem hamming_depends_on_items :
  ∀ (A : Type) (eq_dec : EqDecision A) (h h' : store A)
    (a a' b b' : sequence A),
    items h a = items h' a' → items h b = items h' b' →
    holds_NaN (items h a) = false →
    hamming h a b = hamming h' a' b'.
Proof.
  intros A eq_dec h h' a a' b b' Ha Hb HNaN.
  rewrite (hamming_no_NaN h a b), (hamming_no_NaN h' a' b') by congruence.
  unfold js_length. by rewrite Ha, Hb.
Qed.

Lemma hamming_depends_on_items_witness :
  hamming two_arrays (Arr 0) (Arr 0)
  = hamming no_arrays (Str [0; 1; 0; 1]) (Str [0; 1; 0; 1])
  ∧ hamming two_arrays (Arr 0) (Arr 1)
    = hamming no_arrays (Str [0; 1; 0; 1]) (Str [1; 2; 0; 1]).
Proof.
  split; apply hamming_depends_on_items; reflexivity.
Defined.

(** X4: distances add up along a concatenation that holds no [NaN]:
    when [c] holds the items of [a1] followed by those of [a2], none of
    them [NaN], and [d] those of [b1] followed by those of [b2],
    [hamming(c, d)] is [hamming(a1, b1) + hamming(a2, b2)]. *)
Theorem hamming_concat :
  ∀ (A : Type) (eq_dec : EqDecision A) (h : store A)
    (a1 a2 b1 b2 c d : sequence A) (n1 n2 : nat),
    items h c = items h a1 ++ items h a2 →
    items h d = items h b1 ++ items h b2 →
    holds_NaN (items h c) = false →
    hamming h a1 b1 = Return n1 → hamming h a2 b2 = Return n2 →
    hamming h c d = Return (n1 + n2).
Proof.
  intros A eq_dec h a1 a2 b1 b2 c d n1 n2 Hc Hd HNaN.
  assert (holds_NaN (items h a1) = false ∧ holds_NaN (items h a2) = false)
    as [HNaN1 HNaN2].
  { rewrite Hc, holds_NaN_app in HNaN. by apply orb_false_iff. }
  rewrite (hamming_no_NaN h a1 b1), (hamming_no_NaN h a2 b2),
    (hamming_no_NaN h c d) by done.
  unfold js_length. rewrite Hc, Hd, !length_app.
  destruct (decide (length (items h a1) = length (items h b1))) as [Hlen1|];
    [|done].
  destruct (decide (length (items h a2) = length (items h b2))) as [Hlen2|];
    [|done].
  intros [= <-] [= <-]. rewrite decide_True by lia.
  by rewrite mismatches_app.
Qed.

Lemma hamming_concat_witness :
  hamming two_arrays (Str [0; 1; 0; 1; 7; 8]) (Str [1; 2; 0; 1; 7; 9])
  = Return (2 + 1).
Proof.
  apply (hamming_concat nat _ two_arrays
           (Arr 0) (Str [7; 8]) (Arr 1) (Str [7; 9])); reflexivity.
Defined.

(** X5: two sequences of which the first holds no [NaN], and that hold
    the same items but at one position, are at distance 0 when the two
    items at that position are [===], and at distance 1 when they are
    not. *)
Theorem hamming_one_substitution :
  ∀ (A : Type) (eq_dec : EqDecision A) (h : store A) (a b : sequence A)
    (xs1 xs2 : list (item A)) (y x : item A),
    items h a = xs1 ++ y :: xs2 → items h b = xs1 ++ x :: xs2 →
    holds_NaN (items h a) = false →
    hamming h a b
    = Return (if item_strict_equal (Some y) (Some x) then 0 else 1).
Proof.
  intros A eq_dec h a b xs1 xs2 y x Ha Hb HNaN.
  rewrite hamming_no_NaN by done. unfold js_length.
  rewrite Ha, Hb in *. rewrite !length_app, decide_True by done.
  rewrite holds_NaN_app in HNaN. apply orb_false_iff in HNaN as [H1 H2].
  change (y :: xs2) with ([y] ++ xs2) in H2.
  rewrite holds_NaN_app in H2. apply orb_false_iff in H2 as [_ H2].
  rewrite <- length_app. by rewrite mismatches_middle.
Qed.

Lemma hamming_one_substitution_witness :
  hamming two_arrays (Arr 0) (Str [0; 1; 5; 1]) = Return 1.
Proof.
  etrans.
  - apply (hamming_one_substitution nat _ two_arrays (Arr 0)
             (Str [0; 1; 5; 1]) [Item 0; Item 1] [Item 1] (Item 0) (Item 5));
      reflexivity.
  - reflexivity.
Defined.
(** ** More on the normalized distance *)

Lemma js_div_same n : 0 < n → js_div n n = Fin 1.
Proof.
  destruct n as [|n]; [lia|]. intros _. unfold js_div. f_equal.
  change 1%Q with (Qred 1). apply Qred_complete.
  unfold Qeq. simpl. lia.
Qed.

Lemma js_div_Fin_0 n m : js_div n m = Fin 0 → n = 0 ∧ 0 < m.
Proof.
  destruct m as [|m]; [by destruct n|]. unfold js_div. intros [= Hred].
  split; [|lia].
  pose proof (Qred_correct (Z.of_nat n # Pos.of_nat (S m))) as Hq.
  rewrite Hred in Hq. unfold Qeq in Hq. simpl in Hq. lia.
Qed.

Lemma js_div_NaN n m : js_div n m = NaN ↔ n = 0 ∧ m = 0.
Proof.
  destruct m as [|m], n as [|n]; simpl; split; try done; intros [? ?]; done.
Qed.

Lemma js_div_not_PInf n m : n ≤ m → js_div n m ≠ PInf.
Proof. destruct m as [|m], n as [|n]; simpl; try done; lia. Qed.

Lemma js_div_not_NInf n m : js_div n m ≠ NInf.
Proof. by destruct m as [|m], n as [|n]. Qed.

(** X6: for two sequences that are not both empty, [normalizedDistance]
    and [normalizedSimilarity] are numbers of the interval [0,1]. *)
Theorem normalized_within_unit_interval :
  ∀ (A : Type) (eq_dec : EqDecision A) (h : store A) (a b : sequence A),
    0 < Nat.max (js_length h a) (js_length h b) →
    in_unit_interval (normalizedDistance h a b)
    ∧ in_unit_interval (normalizedSimilarity h a b).
Proof. intros A eq_dec h a b. apply normalized_in_unit_interval. Qed.

Lemma normalized_within_unit_interval_witness :
  in_unit_interval (normalizedDistance two_arrays (Arr 0) (Str [1; 2]))
  ∧ in_unit_interval (normalizedSimilarity two_arrays (Arr 0) (Str [1; 2])).
Proof.
  apply normalized_within_unit_interval. vm_compute. lia.
Defined.

(** X7: [normalizedDistance] returns [NaN] exactly for two empty
    sequences that are not [===], and never an infinity. *)
Theorem normalizedDistance_NaN_iff :
  ∀ (A : Type) (eq_dec : EqDecision A) (h : store A) (a b : sequence A),
    (normalizedDistance h a b = NaN
     ↔ strict_equal a b = false ∧ js_length h a = 0 ∧ js_length h b = 0)
    ∧ normalizedDistance h a b ≠ PInf
    ∧ normalizedDistance h a b ≠ NInf.
Proof.
  intros A eq_dec h a b. rewrite normalizedDistance_cases.
  destruct (strict_equal a b) eqn:E.
  - repeat split; try done. by intros [? _].
  - unfold gap_and_mismatches_ratio. split; [|split].
    + rewrite js_div_NaN. split.
      * intros [_ Hmax]. split; [done|]. lia.
      * intros (_ & Ha & Hb). rewrite Ha, Hb. done.
    + apply js_div_not_PInf, ratio_numerator_le.
    + apply js_div_not_NInf.
Qed.

Lemma normalizedDistance_NaN_iff_witness :
  normalizedDistance (A:=nat) no_arrays (Arr 0) (Str []) = NaN.
Proof.
  apply (proj1 (normalizedDistance_NaN_iff nat _ no_arrays (Arr 0) (Str []))).
  repeat split.
Defined.

(** X8: on two non-empty sequences of equal length, [normalizedDistance]
    is the number [hamming] returns divided by the length. *)
Theorem normalizedDistance_of_hamming :
  ∀ (A : Type) (eq_dec : EqDecision A) (h : store A) (a b : sequence A)
    (n : nat),
    hamming h a b = Return n → 0 < js_length h a →
    normalizedDistance h a b = js_div n (js_length h a).
Proof.
  intros A eq_dec h a b n [Hlen ->]%hamming_Return_inv Hpos.
  rewrite normalizedDistance_cases.
  destruct (strict_equal a b); [by rewrite js_div_0|].
  unfold gap_and_mismatches_ratio.
  by rewrite <- Hlen, Nat.max_id, Nat.min_id, Nat.sub_diag.
Qed.

Lemma normalizedDistance_of_hamming_witness :
  hamming two_arrays (Arr 0) (Arr 1) = Return 2
  ∧ 0 < js_length two_arrays (Arr 0)
  ∧ normalizedDistance two_arrays (Arr 0) (Arr 1)
    = js_div 2 (js_length two_arrays (Arr 0)).
Proof.
  assert (0 < js_length two_arrays (Arr 0)) as Hpos by (vm_compute; lia).
  split; [reflexivity|]. split; [exact Hpos|].
  apply normalizedDistance_of_hamming; [reflexivity | exact Hpos].
Defined.

(** X9: [normalizedDistance] returns 0 exactly when its arguments are
    [===], or are non-empty and hold the same items, none of them [NaN]. *)
Theorem normalizedDistance_zero_iff :
  ∀ (A : Type) (eq_dec : EqDecision A) (h : store A) (a b : sequence A),
    normalizedDistance h a b = Fin 0
    ↔ strict_equal a b = true
      ∨ (items h a = items h b ∧ 0 < js_length h a
         ∧ holds_NaN (items h a) = false).
Proof.
  intros A eq_dec h a b. rewrite normalizedDistance_cases.
  destruct (strict_equal a b) eqn:E; [by split; auto|]. split.
  - intros [Hnum Hmax]%js_div_Fin_0. right.
    assert (js_length h a = js_length h b) as Hlen by lia.
    rewrite <- Hlen, Nat.max_id, Nat.min_id in *.
    destruct (mismatches_0_same (items h a) (items h b)) as [? ?]; [done| |done].
    unfold js_length in Hnum. lia.
  - intros [? | (Hitems & Hpos & HNaN)]; [done|].
    unfold gap_and_mismatches_ratio, js_length in *. rewrite <- Hitems.
    rewrite mismatches_refl, Nat.max_id, Nat.min_id, Nat.sub_diag by done.
    by apply js_div_0.
Qed.

Lemma normalizedDistance_zero_iff_witness :
  normalizedDistance two_arrays (Arr 0) (Str [0; 1; 0; 1]) = Fin 0.
Proof.
  apply normalizedDistance_zero_iff. right.
  split; [reflexivity|]. split; [vm_compute; lia | reflexivity].
Defined.

(** X10: an empty sequence and a non-empty one are at distance 1 and
    have similarity 0, in either order. *)
Theorem normalized_empty_vs_nonempty :
  ∀ (A : Type) (eq_dec : EqDecision A) (h : store A) (a b : sequence A),
    js_length h a = 0 → 0 < js_length h b →
    normalizedDistance h a b = Fin 1 ∧ normalizedSimilarity h a b = Fin 0
    ∧ normalizedDistance h b a = Fin 1 ∧ normalizedSimilarity h b a = Fin 0.
Proof.
  intros A eq_dec h a b Ha Hb.
  assert (normalizedDistance h a b = Fin 1) as Hd.
  { rewrite normalizedDistance_cases.
    rewrite (strict_equal_same_length h a b) by lia.
    unfold gap_and_mismatches_ratio. rewrite Ha. simpl Nat.max. simpl Nat.min.
    rewrite Nat.sub_0_r, Nat.add_0_r. by apply js_div_same. }
  unfold normalizedSimilarity.
  rewrite <- (normalizedDistance_sym h a b), Hd. done.
Qed.

Lemma normalized_empty_vs_nonempty_witness :
  normalizedDistance two_arrays (Str []) (Arr 1) = Fin 1
  ∧ normalizedSimilarity two_arrays (Str []) (Arr 1) = Fin 0
  ∧ normalizedDistance two_arrays (Arr 1) (Str []) = Fin 1
  ∧ normalizedSimilarity two_arrays (Arr 1) (Str []) = Fin 0.
Proof.
  apply normalized_empty_vs_nonempty; [reflexivity | vm_compute; lia].
Defined.

(** X11: when the shorter sequence holds no [NaN] and is a proper
    prefix of the longer one, only the gap counts: the distance is the
    number of extra items divided by the greater length. *)
Theorem normalizedDistance_proper_prefix :
  ∀ (A : Type) (eq_dec : EqDecision A) (h : store A) (a b : sequence A)
    (ys : list (item A)),
    items h b = items h a ++ ys → 0 < length ys →
    holds_NaN (items h a) = false →
    normalizedDistance h a b = js_div (length ys) (js_length h b)
    ∧ normalizedDistance h b a = js_div (length ys) (js_length h b).
Proof.
  intros A eq_dec h a b ys Hb Hys HNaN.
  assert (js_length h b = js_length h a + length ys) as Hlen.
  { unfold js_length. by rewrite Hb, length_app. }
  rewrite <- (normalizedDistance_sym h a b). split; [|].
  all: rewrite normalizedDistance_cases;
    rewrite (strict_equal_same_length h a b) by lia;
    unfold gap_and_mismatches_ratio;
    rewrite Nat.max_r, Nat.min_l by lia;
    unfold js_length at 3; rewrite Hb, mismatches_prefix by done;
    f_equal; lia.
Qed.

Lemma normalizedDistance_proper_prefix_witness :
  normalizedDistance two_arrays (Str [0; 1]) (Arr 0)
  = js_div 2 (js_length two_arrays (Arr 0))
  ∧ normalizedDistance two_arrays (Arr 0) (Str [0; 1])
    = js_div 2 (js_length two_arrays (Arr 0)).
Proof.
  apply (normalizedDistance_proper_prefix nat _ two_arrays (Str [0; 1]) (Arr 0)
           [Item 0; Item 1]); [reflexivity | simpl; lia | reflexivity].
Defined.

(** X12: when the two sequences are not both empty and the first holds
    no [NaN], [normalizedDistance] depends on the items of its arguments
    only. *)
Theorem normalizedDistance_depends_on_items :
  ∀ (A : Type) (eq_dec : EqDecision A) (h h' : store A)
    (a a' b b' : sequence A),
    items h a = items h' a' → items h b = items h' b' →
    0 < Nat.max (js_length h a) (js_length h b) →
    holds_NaN (items h a) = false →
    normalizedDistance h a b = normalizedDistance h' a' b'.
Proof.
  intros A eq_dec h h' a a' b b' Ha Hb Hpos HNaN.
  rewrite (normalizedDistance_ratio h a b) by auto.
  rewrite (normalizedDistance_ratio h' a' b').
  - unfold gap_and_mismatches_ratio, js_length. by rewrite Ha, Hb.
  - unfold js_length in *. by rewrite <- Ha, <- Hb.
  - right. by rewrite <- Ha.
Qed.

Lemma normalizedDistance_depends_on_items_witness :
  normalizedDistance two_arrays (Arr 0) (Arr 0)
  = normalizedDistance no_arrays (Str [0; 1; 0; 1]) (Str [0; 1; 0; 1]).
Proof.
  apply normalizedDistance_depends_on_items;
    [reflexivity | reflexivity | vm_compute; lia | reflexivity].
Defined.

(** ** More on the bitwise variant *)

Section CountingFacts.
Context {B : Type}.
Implicit Types (l : list B).

Lemma length_filter_0_iff (P : B → Prop) `{!∀ e, Decision (P e)} l :
  length (filter P l) = 0 ↔ ∀ e, e ∈ l → ¬ P e.
Proof.
  induction l as [|b l IH].
  - split; [|done]. intros _ e He. by apply elem_of_nil in He.
  - rewrite filter_cons. destruct (decide (P b)) as [Hb|Hb]; simpl.
    + split; [done|]. intros Hall. destruct (Hall b); [left | done].
    + rewrite IH. split.
      * intros Hall e [->|He]%elem_of_cons; auto.
      * intros Hall e He. apply Hall. by right.
Qed.

Lemma length_filter_or_le (P1 P2 P3 : B → Prop)
    `{!∀ e, Decision (P1 e), !∀ e, Decision (P2 e), !∀ e, Decision (P3 e)} l :
  (∀ e, e ∈ l → P1 e → P2 e ∨ P3 e) →
  length (filter P1 l) ≤ length (filter P2 l) + length (filter P3 l).
Proof.
  induction l as [|b l IH]; intros Hor; [done|].
  rewrite !filter_cons.
  assert (length (filter P1 l) ≤ length (filter P2 l) + length (filter P3 l))
    as Hl by (apply IH; intros e He; apply Hor; by right).
  assert (P1 b → P2 b ∨ P3 b) as Hb by (apply Hor; left).
  destruct (decide (P1 b)), (decide (P2 b)), (decide (P3 b)); simpl;
    tauto || lia.
Qed.

Lemma length_filter_eq_NoDup `{!EqDecision B} l (k : B) :
  NoDup l → k ∈ l → length (filter (λ e, e = k) l) = 1.
Proof.
  induction l as [|b l IH]; intros Hnd Hk.
  - by apply elem_of_nil in Hk.
  - apply NoDup_cons in Hnd as [Hb Hnd]. rewrite filter_cons.
    destruct (decide (b = k)) as [->|Hne]; simpl.
    + f_equal. apply length_filter_0_iff. intros e He ->. done.
    + apply IH; [done|]. apply elem_of_cons in Hk as [->|Hk]; done.
Qed.

Lemma length_filter_fmap {C} (f : C → B) (P : B → Prop)
    `{!∀ e, Decision (P e)} (l : list C) :
  length (filter P (f <$> l)) = length (filter (λ c, P (f c)) l).
Proof.
  induction l as [|c l IH]; [done|].
  rewrite fmap_cons, !filter_cons.
  destruct (decide (P (f c))); simpl; by rewrite IH.
Qed.
End CountingFacts.

Section BitwiseMore.
Local Open Scope Z_scope.
Implicit Types (x y a b c i k : Z) (d fuel : nat).

Lemma testbit_js_xor a b i :
  0 ≤ i < 32 → Z.testbit (js_xor a b) i = xorb (Z.testbit a i) (Z.testbit b i).
Proof.
  intros Hi. unfold js_xor.
  by rewrite ToInt32_testbit, Z.lxor_spec, !ToInt32_testbit.
Qed.

Lemma testbit_js_and a b i :
  0 ≤ i < 32 → Z.testbit (js_and a b) i = Z.testbit a i && Z.testbit b i.
Proof.
  intros Hi. unfold js_and.
  by rewrite ToInt32_testbit, Z.land_spec, !ToInt32_testbit.
Qed.

Lemma low_bits_mod a b :
  (∀ i, 0 ≤ i < 32 → Z.testbit a i = Z.testbit b i)
  ↔ a mod 2 ^ 32 = b mod 2 ^ 32.
Proof.
  split.
  - intros Hbits. apply Z.bits_inj'. intros i Hi.
    rewrite !Z.testbit_mod_pow2 by lia.
    destruct (Z.ltb_spec i 32); [|done]. simpl. apply Hbits. lia.
  - intros Hmod i Hi.
    rewrite <- (Z.mod_pow2_bits_low a 32 i), <- (Z.mod_pow2_bits_low b 32 i)
      by lia.
    by rewrite Hmod.
Qed.

Lemma differing_bits_0_iff a b :
  differing_bits a b = 0%nat ↔ a mod 2 ^ 32 = b mod 2 ^ 32.
Proof.
  unfold differing_bits. rewrite length_filter_0_iff, <- low_bits_mod.
  split.
  - intros Hall i Hi%elem_of_bit_positions.
    destruct (decide (Z.testbit a i = Z.testbit b i)) as [|Hne]; [done|].
    by destruct (Hall i Hi).
  - intros Hbits i Hi%elem_of_bit_positions Hne. by apply Hne, Hbits.
Qed.

Lemma differing_bits_triangle a b c :
  (differing_bits a c ≤ differing_bits a b + differing_bits b c)%nat.
Proof.
  unfold differing_bits. apply length_filter_or_le. intros i _ Hac.
  destruct (decide (Z.testbit a i = Z.testbit b i)) as [Hab|Hab]; [|by left].
  right. by rewrite <- Hab.
Qed.

Lemma differing_bits_js_xor a b c :
  differing_bits (js_xor a c) (js_xor b c) = differing_bits a b.
Proof.
  unfold differing_bits. apply length_filter_ext.
  intros i Hi%elem_of_bit_positions. rewrite !testbit_js_xor by done.
  destruct (Z.testbit a i), (Z.testbit b i), (Z.testbit c i); simpl;
    split; congruence.
Qed.

Lemma differing_bits_flip a k :
  0 ≤ k →
  differing_bits a (js_xor a (2 ^ k)) = if decide (k < 32) then 1%nat else 0%nat.
Proof.
  intros Hk.
  assert (∀ i, i ∈ bit_positions →
            Z.testbit a i ≠ Z.testbit (js_xor a (2 ^ k)) i ↔ i = k) as Hflip.
  { intros i Hi%elem_of_bit_positions.
    rewrite testbit_js_xor, Z.pow2_bits_eqb by done.
    destruct (Z.eqb_spec k i) as [->|Hne], (Z.testbit a i); simpl;
      split; congruence. }
  unfold differing_bits. rewrite (length_filter_ext _ (λ i, i = k)) by done.
  destruct (decide (k < 32)) as [Hlt|Hge].
  - apply length_filter_eq_NoDup; [apply NoDup_seqZ|].
    apply elem_of_bit_positions. lia.
  - apply length_filter_0_iff. intros i Hi%elem_of_bit_positions ->. lia.
Qed.

Lemma length_bits32 x : length (bits32 x) = 32%nat.
Proof. unfold bits32. by rewrite length_fmap, length_bit_positions. Qed.

Lemma lookup_bits32 x (j : nat) :
  (j < 32)%nat → bits32 x !! j = Some (Z.testbit x (Z.of_nat j)).
Proof.
  intros Hj. unfold bits32, bit_positions, bit_width.
  rewrite list_lookup_fmap, lookup_seqZ_lt by lia. done.
Qed.

Lemma mismatches_bits32 a b :
  mismatches (Item <$> bits32 a) (Item <$> bits32 b) 32 = differing_bits a b.
Proof.
  unfold differing_bits, bit_positions, bit_width, seqZ.
  rewrite length_filter_fmap. unfold mismatches.
  change (Z.to_nat (Z.of_nat 32)) with 32%nat.
  apply length_filter_ext. intros j [_ Hj]%elem_of_seq.
  unfold differ_at. rewrite !list_lookup_fmap, !lookup_bits32 by lia.
  rewrite Z.add_0_r. simpl. rewrite negb_true_iff, bool_decide_eq_false.
  done.
Qed.
End BitwiseMore.

(** X13: [bitwise] returns 0 exactly when its operands agree modulo
    2^32; in particular [bitwise(a, a)] is 0. *)
Theorem bitwise_zero_iff_congruent :
  ∀ (fuel : nat) (a b : Z),
    0 < fuel →
    bitwise fuel a b = Some 0 ↔ (a mod 2 ^ 32 = b mod 2 ^ 32)%Z.
Proof.
  intros fuel a b Hfuel. rewrite bitwise_differing_bits, <- differing_bits_0_iff.
  destruct (differing_bits a b) as [|n].
  - by rewrite (proj2 (Nat.ltb_lt 0 fuel)) by done.
  - destruct (S n <? fuel); split; done.
Qed.

Lemma bitwise_zero_iff_congruent_witness :
  bitwise 1 (2 ^ 32 + 7) 7 = Some 0.
Proof.
  apply bitwise_zero_iff_congruent; [lia | reflexivity].
Defined.

(** X14: the results of [bitwise] satisfy the triangle inequality. *)
Theorem bitwise_triangle :
  ∀ (fuel : nat) (a b c : Z),
    bit_width < fuel →
    ∃ ac ab bc : nat,
      bitwise fuel a c = Some ac ∧ bitwise fuel a b = Some ab
      ∧ bitwise fuel b c = Some bc ∧ ac ≤ ab + bc.
Proof.
  intros fuel a b c Hfuel. rewrite !bitwise_enough_fuel by done.
  do 3 eexists. repeat split. apply differing_bits_triangle.
Qed.

Lemma bitwise_triangle_witness :
  ∃ ac ab bc : nat,
    bitwise 33 5 (-1) = Some ac ∧ bitwise 33 5 9 = Some ab
    ∧ bitwise 33 9 (-1) = Some bc ∧ ac ≤ ab + bc.
Proof.
  apply bitwise_triangle. unfold bit_width. lia.
Defined.

(** X15: XOR-ing both operands with the same mask does not change the
    result: [bitwise(a ^ c, b ^ c)] is [bitwise(a, b)]. *)
Theorem bitwise_xor_mask :
  ∀ (fuel : nat) (a b c : Z),
    bitwise fuel (js_xor a c) (js_xor b c) = bitwise fuel a b.
Proof.
  intros fuel a b c. by rewrite !bitwise_differing_bits, differing_bits_js_xor.
Qed.

(** X16: the loop of [bitwise] on a 32-bit integer: one pass of
    [xor &= xor - 1] on a non-zero [xor] clears one bit and sets none, and
    from a counter [d] the loop returns [d] plus the number of bits set. *)
Theorem bitwise_loop_clears_one_bit_per_pass :
  ∀ x : Z,
    ToInt32 x = x →
    (x ≠ 0%Z →
     popcount x = S (popcount (js_and x (x - 1)))
     ∧ ∀ i : Z, (0 ≤ i < 32)%Z →
         Z.testbit (js_and x (x - 1)) i = true → Z.testbit x i = true)
    ∧ ∀ fuel d : nat,
        bit_width < fuel → bitwise_loop fuel d x = Some (d + popcount x).
Proof.
  intros x Hx. split.
  - intros Hne. split; [by apply popcount_clear_lowest|].
    intros i Hi. rewrite testbit_js_and by done.
    by intros [? _]%andb_true_iff.
  - intros fuel d Hfuel. rewrite bitwise_loop_popcount by done.
    pose proof (popcount_le x).
    by rewrite (proj2 (Nat.ltb_lt _ _)) by lia.
Qed.

Lemma bitwise_loop_clears_one_bit_per_pass_witness :
  popcount (-12) = S (popcount (js_and (-12) (-12 - 1)))
  ∧ bitwise_loop 33 4 (-12) = Some (4 + popcount (-12)).
Proof.
  assert (ToInt32 (-12) = (-12)%Z) as Hx by reflexivity.
  assert (bit_width < 33) as Hfuel by (unfold bit_width; lia).
  split.
  - apply (proj1 (bitwise_loop_clears_one_bit_per_pass (-12) Hx)). lia.
  - apply (proj2 (bitwise_loop_clears_one_bit_per_pass (-12) Hx)). exact Hfuel.
Defined.

(** X17: flipping bit [k] of an operand: [bitwise(a, a ^ 2^k)] is 1 when
    [k] is one of the 32 positions, and 0 when [k] is above them. *)
Theorem bitwise_one_bit_flipped :
  ∀ (fuel : nat) (a k : Z),
    bit_width < fuel → (0 ≤ k)%Z →
    bitwise fuel a (js_xor a (2 ^ k))
    = Some (if decide (k < 32)%Z then 1 else 0).
Proof.
  intros fuel a k Hfuel Hk.
  by rewrite bitwise_enough_fuel, differing_bits_flip.
Qed.

Lemma bitwise_one_bit_flipped_witness :
  bitwise 33 (-7) (js_xor (-7) (2 ^ 31)) = Some 1
  ∧ bitwise 33 (-7) (js_xor (-7) (2 ^ 40)) = Some 0.
Proof.
  assert (bit_width < 33) as Hfuel by (unfold bit_width; lia).
  split.
  - etrans; [apply (bitwise_one_bit_flipped 33 (-7) 31 Hfuel); lia|].
    reflexivity.
  - etrans; [apply (bitwise_one_bit_flipped 33 (-7) 40 Hfuel); lia|].
    reflexivity.
Defined.

(** X18: [bitwise] agrees with [hamming] on the 32-bit patterns: the
    number [bitwise(a, b)] returns is the number [hamming] returns on the
    two sequences of the 32 bits of [a] and of [b]. *)
Theorem bitwise_is_hamming_of_bits :
  ∀ (fuel : nat) (h : store bool) (a b : Z),
    bit_width < fuel →
    ∃ d : nat,
      bitwise fuel a b = Some d
      ∧ hamming h (Str (bits32 a)) (Str (bits32 b)) = Return d.
Proof.
  intros fuel h a b Hfuel. exists (differing_bits a b).
  split; [by apply bitwise_enough_fuel|].
  rewrite hamming_no_NaN by apply holds_NaN_Item.
  unfold js_length, items.
  rewrite !length_fmap, !length_bits32, decide_True by done.
  by rewrite mismatches_bits32.
Qed.

Lemma bitwise_is_hamming_of_bits_witness :
  ∃ d : nat,
    bitwise 33 (-6) 9 = Some d
    ∧ hamming no_arrays (Str (bits32 (-6))) (Str (bits32 9)) = Return d.
Proof.
  apply bitwise_is_hamming_of_bits. unfold bit_width. lia.
Defined.

(** X19: [normalizedSimilarity] is 1 exactly when [normalizedDistance]
    is 0, and is [NaN] exactly when [normalizedDistance] is. *)
Theorem normalizedSimilarity_one_iff :
  ∀ (A : Type) (eq_dec : EqDecision A) (h : store A) (a b : sequence A),
    (normalizedSimilarity h a b = Fin 1 ↔ normalizedDistance h a b = Fin 0)
    ∧ (normalizedSimilarity h a b = NaN ↔ normalizedDistance h a b = NaN).
Proof.
  intros A eq_dec h a b. unfold normalizedSimilarity.
  rewrite normalizedDistance_cases.
  destruct (strict_equal a b); [by split|].
  unfold gap_and_mismatches_ratio.
  generalize (Nat.max (js_length h a) (js_length h b)
              - Nat.min (js_length h a) (js_length h b)
              + mismatches (items h a) (items h b)
                  (Nat.min (js_length h a) (js_length h b))).
  generalize (Nat.max (js_length h a) (js_length h b)).
  intros m n. destruct m as [|m]; [by destruct n|].
  unfold js_div, one_minus. split; [|by split].
  set (q := (Z.of_nat n # Pos.of_nat (S m))%Q). split.
  - intros [= Hone]. f_equal.
    pose proof (Qred_correct (1 - Qred q)) as H1. rewrite Hone in H1.
    pose proof (Qred_correct q) as Hq.
    change 0%Q with (Qred 0). apply Qred_complete. lra.
  - intros [= ->]. done.
Qed.

Lemma normalizedSimilarity_one_iff_witness :
  normalizedSimilarity two_arrays (Arr 0) (Str [0; 1; 0; 1]) = Fin 1.
Proof.
  apply (proj1 (normalizedSimilarity_one_iff nat _ two_arrays (Arr 0)
                  (Str [0; 1; 0; 1]))).
  reflexivity.
Defined.
